(** * The index scheme of a relation (catalog/IndexScheme.hpp)

    A shallow embedding of [quickstep::IndexScheme]: the map from index
    names to the index descriptions registered under that name, with its
    queries, its single mutator [addIndexMapEntry], and the
    serialization pair [getProto] / [ReconstructFromProto]. *)

From stdpp Require Import gmap strings list fin_maps fin_sets.

Set Default Proof Using "Type".

(** ** Data model *)

Section Model.

(** The two components of an index description that the header relies on
    are left abstract: the enumeration of sub-block types, which the code
    only ever compares with [!=], and whatever else a description
    carries. *)
Context {IndexSubBlockType : Type} `{!EqDecision IndexSubBlockType}.
Context {Payload : Type}.

(** Modelled from the spec: the declaration of the protocol-buffer message
    [IndexSubBlockDescription] is not part of the sources.  The spec gives
    it as a record identifying the structural kind of an index (its
    sub-block type tag) plus implementation-specific parameters; the header
    reads the tag through the accessor [sub_block_type()]. *)
Record IndexSubBlockDescription : Type := mkDescription {
  sub_block_type : IndexSubBlockType;
  parameters : Payload
}.

(** [std::unordered_map<std::string, std::vector<IndexSubBlockDescription>>
    index_map_], the only data member of the class. *)
Record IndexScheme : Type := mkIndexScheme {
  index_map_ : gmap string (list IndexSubBlockDescription)
}.

(** The constructor [IndexScheme()] leaves [index_map_] empty. *)
Definition IndexScheme_new : IndexScheme := {| index_map_ := ∅ |}.

(** ** Queries *)

(** [getNumIndices]: [index_map_.size()]. *)
Definition getNumIndices (s : IndexScheme) : nat := size (index_map_ s).

(** [hasIndexWithName]: [index_map_.find(index_name) != index_map_.end()]. *)
Definition hasIndexWithName (s : IndexScheme) (index_name : string) : bool :=
  match index_map_ s !! index_name with
  | Some _ => true
  | None => false
  end.

(** [areIndexDescriptionsSimilar]: a [const] member that does not read the
    object; it answers [false] when the two type tags differ and [true]
    otherwise (the comparison of attribute ids is a TODO in the source). *)
Definition areIndexDescriptionsSimilar
    (desc_a desc_b : IndexSubBlockDescription) : bool :=
  if decide (sub_block_type desc_a ≠ sub_block_type desc_b)
  then false
  else true.

(** The inner loop of [hasIndexWithDescription]: walk one vector of
    descriptions and stop at the first one similar to the argument. *)
Fixpoint scan_descriptions (index_descriptions : list IndexSubBlockDescription)
    (index_description : IndexSubBlockDescription) : bool :=
  match index_descriptions with
  | [] => false
  | d :: rest =>
      if areIndexDescriptionsSimilar d index_description then true
      else scan_descriptions rest index_description
  end.

(** The outer loop of [hasIndexWithDescription], over the entries of the map
    in the order the iterator yields them. *)
Fixpoint scan_entries
    (entries : list (string * list IndexSubBlockDescription))
    (index_description : IndexSubBlockDescription) : bool :=
  match entries with
  | [] => false
  | (_, index_descriptions) :: rest =>
      if scan_descriptions index_descriptions index_description then true
      else scan_entries rest index_description
  end.

(** [hasIndexWithDescription]: iterate from [cbegin()] to [cend()].  The
    iteration order of an unordered map is unspecified; [map_to_list] fixes
    one, and [scan_entries_Permutation] below shows the answer is the same
    for any other. *)
Definition hasIndexWithDescription (s : IndexScheme)
    (index_description : IndexSubBlockDescription) : bool :=
  scan_entries (map_to_list (index_map_ s)) index_description.

(** ** Registration *)

(** The copy loop of [addIndexMapEntry]:
    [for (i = 0; i < index_descriptions.size(); ++i)
       index_sub_block_descriptions.emplace_back(index_descriptions[i]);]
    The index never leaves the vector, so the [None] branch is dead. *)
Definition copy_step (index_descriptions : list IndexSubBlockDescription)
    (acc : list IndexSubBlockDescription) (i : nat)
    : list IndexSubBlockDescription :=
  match index_descriptions !! i with
  | Some d => acc ++ [d]
  | None => acc
  end.

Definition copy_descriptions
    (index_descriptions : list IndexSubBlockDescription)
    : list IndexSubBlockDescription :=
  foldl (copy_step index_descriptions) []
        (seq 0 (length index_descriptions)).

(** [addIndexMapEntry]: the returned flag together with the object after the
    call.  [index_map_[index_name] = v] on an absent key inserts it. *)
Definition addIndexMapEntry (index_name : string)
    (index_descriptions : list IndexSubBlockDescription)
    (s : IndexScheme) : bool * IndexScheme :=
  match index_map_ s !! index_name with
  | Some _ => (false, s)
  | None =>
      (true,
       {| index_map_ :=
            <[index_name := copy_descriptions index_descriptions]>
              (index_map_ s) |})
  end.

(** A client driving one object: a finite sequence of [addIndexMapEntry]
    calls, recording the flag each call returned. *)
Fixpoint run_calls
    (calls : list (string * list IndexSubBlockDescription))
    (s : IndexScheme) : list bool * IndexScheme :=
  match calls with
  | [] => ([], s)
  | (index_name, index_descriptions) :: rest =>
      let '(r, s1) := addIndexMapEntry index_name index_descriptions s in
      let '(rs, s2) := run_calls rest s1 in
      (r :: rs, s2)
  end.

(** The names of the calls that returned [true], in call order. *)
Fixpoint successful_names
    (calls : list (string * list IndexSubBlockDescription))
    (flags : list bool) : list string :=
  match calls, flags with
  | (index_name, _) :: calls', true :: flags' =>
      index_name :: successful_names calls' flags'
  | _ :: calls', false :: flags' => successful_names calls' flags'
  | _, _ => []
  end.

(** ** Serialization *)

(** Modelled from the spec: [serialization::IndexScheme] is declared in
    catalog/Catalog.proto, which is not part of the sources.  The spec gives
    the persisted record as one repeated field, each element holding an
    index name and a repeated list of index-description sub-records. *)
Record IndexEntry : Type := mkIndexEntry {
  index_name : string;
  index_description : list IndexSubBlockDescription
}.

Record IndexSchemeProto : Type := mkIndexSchemeProto {
  index_entries : list IndexEntry
}.

(** Modelled from the spec: the body of [getProto] is in IndexScheme.cpp,
    which is not part of the sources.  Per the spec it produces, for every
    (name, sequence) pair of the map, the name and each description in its
    stored order. *)
Definition entry_of_pair
    (p : string * list IndexSubBlockDescription) : IndexEntry :=
  {| index_name := p.1; index_description := p.2 |}.

Definition getProto (s : IndexScheme) : IndexSchemeProto :=
  {| index_entries := entry_of_pair <$> map_to_list (index_map_ s) |}.

(** Modelled from the spec: the body of [ReconstructFromProto] is in
    IndexScheme.cpp, which is not part of the sources.  Per the spec it
    rebuilds a scheme whose map contains exactly the (name, sequence) pairs
    of the record, taken in record order. *)
Definition reconstruct_step
    (m : gmap string (list IndexSubBlockDescription)) (e : IndexEntry)
    : gmap string (list IndexSubBlockDescription) :=
  <[index_name e := index_description e]> m.

Definition ReconstructFromProto (proto : IndexSchemeProto) : IndexScheme :=
  {| index_map_ := foldl reconstruct_step ∅ (index_entries proto) |}.

End Model.

Arguments IndexSubBlockDescription : clear implicits.
Arguments IndexScheme : clear implicits.
Arguments IndexEntry : clear implicits.
Arguments IndexSchemeProto : clear implicits.

(** ** Sample data for the scenarios

    Two type tags and descriptions over them, with a list of attribute ids
    as payload. *)

Module Sample.

Inductive SubBlockType : Type := BTREE | HASH.

#[global] Instance SubBlockType_eq_dec : EqDecision SubBlockType.
Proof. solve_decision. Defined.

Definition Description : Type := IndexSubBlockDescription SubBlockType (list Z).
Definition Scheme : Type := IndexScheme SubBlockType (list Z).

Definition btree (attrs : list Z) : Description :=
  {| sub_block_type := BTREE; parameters := attrs |}.
Definition hash (attrs : list Z) : Description :=
  {| sub_block_type := HASH; parameters := attrs |}.

Definition empty : Scheme := IndexScheme_new.

(** The object after registering ["idx1"] with one BTREE description. *)
Definition one_index : Scheme :=
  (addIndexMapEntry "idx1" [btree [0%Z]] empty).2.

(** The object after also registering ["idx2"] with a BTREE description. *)
Definition two_indices : Scheme :=
  (addIndexMapEntry "idx2" [btree [1%Z; 2%Z]] one_index).2.

End Sample.

(** ** Basic facts about the embedding *)

Section Facts.

Context {IndexSubBlockType : Type} `{!EqDecision IndexSubBlockType}.
Context {Payload : Type}.

Local Abbreviation Description := (IndexSubBlockDescription IndexSubBlockType Payload).
Local Abbreviation Scheme := (IndexScheme IndexSubBlockType Payload).
Local Abbreviation Proto := (IndexSchemeProto IndexSubBlockType Payload).

Implicit Types (s : Scheme) (n k : string) (d c : Description).
Implicit Types (ds : list Description).
Implicit Types (calls : list (string * list Description)).

(** *** The copy loop *)

Lemma copy_loop_prefix ds (j : nat) :
  j ≤ length ds → foldl (copy_step ds) [] (seq 0 j) = take j ds.
Proof.
  induction j as [|j IH]; intros Hj.
  - by rewrite take_0.
  - rewrite seq_S, foldl_app, IH by lia. simpl. unfold copy_step.
    destruct (lookup_lt_is_Some_2 ds j) as [d Hd]; [lia|].
    rewrite Hd. by erewrite take_S_r.
Qed.

Lemma copy_descriptions_id ds : copy_descriptions ds = ds.
Proof.
  unfold copy_descriptions. rewrite copy_loop_prefix by done.
  apply firstn_all.
Qed.

(** *** Similarity and the two scanning loops *)

Lemma similar_true_iff (a b : Description) :
  areIndexDescriptionsSimilar a b = true ↔ sub_block_type a = sub_block_type b.
Proof.
  unfold areIndexDescriptionsSimilar. case_decide as Hne.
  - split; [done | intros Heq; by destruct Hne].
  - split; [intros _ | done].
    destruct (decide (sub_block_type a = sub_block_type b)); [done|].
    by destruct Hne.
Qed.

Lemma scan_descriptions_true ds c :
  scan_descriptions ds c = true ↔
  ∃ d, d ∈ ds ∧ areIndexDescriptionsSimilar d c = true.
Proof.
  induction ds as [|d0 ds IH]; simpl.
  - split; [done | intros (d & Hin & _); by apply elem_of_nil in Hin].
  - destruct (areIndexDescriptionsSimilar d0 c) eqn:Hsim.
    + split; [intros _ | done]. exists d0. split; [left | done].
    + rewrite IH. split.
      * intros (d & Hin & Hd). exists d. split; [by right | done].
      * intros (d & Hin & Hd). apply elem_of_cons in Hin as [-> | Hin].
        -- congruence.
        -- by exists d.
Qed.

Lemma scan_entries_true (entries : list (string * list Description)) c :
  scan_entries entries c = true ↔
  ∃ n ds, (n, ds) ∈ entries ∧ scan_descriptions ds c = true.
Proof.
  induction entries as [|[n0 ds0] entries IH]; simpl.
  - split; [done | intros (n & ds & Hin & _); by apply elem_of_nil in Hin].
  - destruct (scan_descriptions ds0 c) eqn:Hscan.
    + split; [intros _ | done]. exists n0, ds0. split; [left | done].
    + rewrite IH. split.
      * intros (n & ds & Hin & Hd). exists n, ds. split; [by right | done].
      * intros (n & ds & Hin & Hd). apply elem_of_cons in Hin as [Heq | Hin].
        -- injection Heq as -> ->. congruence.
        -- by exists n, ds.
Qed.

(** The answer of the outer loop does not depend on the order in which the
    iterator yields the entries. *)
Lemma scan_entries_Permutation
    (l1 l2 : list (string * list Description)) c :
  l1 ≡ₚ l2 → scan_entries l1 c = scan_entries l2 c.
Proof.
  intros Hp.
  destruct (scan_entries l1 c) eqn:H1; symmetry.
  - apply scan_entries_true in H1 as (n & ds & Hin & Hd).
    apply scan_entries_true. exists n, ds. by rewrite <- Hp.
  - destruct (scan_entries l2 c) eqn:H2; [|done].
    apply scan_entries_true in H2 as (n & ds & Hin & Hd).
    assert (scan_entries l1 c = true) as Hc; [|congruence].
    apply scan_entries_true. exists n, ds. by rewrite Hp.
Qed.

Lemma hasIndexWithDescription_true s c :
  hasIndexWithDescription s c = true ↔
  ∃ n ds d, index_map_ s !! n = Some ds ∧ d ∈ ds ∧
            areIndexDescriptionsSimilar d c = true.
Proof.
  unfold hasIndexWithDescription. rewrite scan_entries_true. split.
  - intros (n & ds & Hin & Hscan).
    apply elem_of_map_to_list in Hin.
    apply scan_descriptions_true in Hscan as (d & Hd & Hsim).
    by exists n, ds, d.
  - intros (n & ds & d & Hm & Hd & Hsim). exists n, ds. split.
    + by apply elem_of_map_to_list.
    + apply scan_descriptions_true. by exists d.
Qed.

(** *** One registration *)

Lemma hasIndexWithName_true s n :
  hasIndexWithName s n = true ↔ is_Some (index_map_ s !! n).
Proof.
  unfold hasIndexWithName. destruct (index_map_ s !! n) as [ds0|].
  - split; [intros _; by exists ds0 | done].
  - split; [done | by intros [ds0 ?]].
Qed.

Lemma addIndexMapEntry_absent s n ds :
  index_map_ s !! n = None →
  addIndexMapEntry n ds s = (true, {| index_map_ := <[n := ds]> (index_map_ s) |}).
Proof.
  intros Hn. unfold addIndexMapEntry. by rewrite Hn, copy_descriptions_id.
Qed.

Lemma addIndexMapEntry_present s n ds ds0 :
  index_map_ s !! n = Some ds0 → addIndexMapEntry n ds s = (false, s).
Proof. intros Hn. unfold addIndexMapEntry. by rewrite Hn. Qed.

Lemma addIndexMapEntry_true_inv s n ds s1 :
  addIndexMapEntry n ds s = (true, s1) →
  index_map_ s !! n = None ∧ index_map_ s1 = <[n := ds]> (index_map_ s).
Proof.
  unfold addIndexMapEntry. destruct (index_map_ s !! n) eqn:Hn; [done|].
  rewrite copy_descriptions_id. intros [= <-]. done.
Qed.

Lemma addIndexMapEntry_false_inv s n ds s1 :
  addIndexMapEntry n ds s = (false, s1) →
  is_Some (index_map_ s !! n) ∧ s1 = s.
Proof.
  unfold addIndexMapEntry. destruct (index_map_ s !! n) eqn:Hn; [|done].
  intros [= <-]. split; [by eexists | done].
Qed.

(** A call never removes or rewrites an entry that is already there. *)
Lemma addIndexMapEntry_keeps s n ds k ds0 :
  index_map_ s !! k = Some ds0 →
  index_map_ (addIndexMapEntry n ds s).2 !! k = Some ds0.
Proof.
  intros Hk. unfold addIndexMapEntry.
  destruct (index_map_ s !! n) eqn:Hn; simpl; [done|].
  rewrite lookup_insert_ne; [done | congruence].
Qed.

(** *** Sequences of registrations *)

Lemma run_calls_cons n ds calls s :
  run_calls ((n, ds) :: calls) s =
  ((addIndexMapEntry n ds s).1 :: (run_calls calls (addIndexMapEntry n ds s).2).1,
   (run_calls calls (addIndexMapEntry n ds s).2).2).
Proof.
  simpl. destruct (addIndexMapEntry n ds s) as [r s1]. simpl.
  by destruct (run_calls calls s1).
Qed.

Lemma run_calls_keeps calls s k ds0 :
  index_map_ s !! k = Some ds0 →
  index_map_ (run_calls calls s).2 !! k = Some ds0.
Proof.
  revert s. induction calls as [|[n ds] calls IH]; intros s Hk; [done|].
  rewrite run_calls_cons. simpl. apply IH. by apply addIndexMapEntry_keeps.
Qed.

End Facts.

(** ** Counting registered names *)

Section Counting.

Context {IndexSubBlockType : Type} `{!EqDecision IndexSubBlockType}.
Context {Payload : Type}.

Local Abbreviation Description := (IndexSubBlockDescription IndexSubBlockType Payload).
Local Abbreviation Scheme := (IndexScheme IndexSubBlockType Payload).

Implicit Types (s : Scheme) (n k : string).
Implicit Types (ds : list Description).
Implicit Types (calls : list (string * list Description)).

Lemma getNumIndices_new : getNumIndices (IndexScheme_new : Scheme) = 0.
Proof. unfold getNumIndices. simpl. apply map_size_empty. Qed.

Lemma hasIndexWithName_new n : hasIndexWithName (IndexScheme_new : Scheme) n = false.
Proof. unfold hasIndexWithName. simpl. by rewrite lookup_empty. Qed.

Lemma getNumIndices_after_call s n ds :
  getNumIndices (addIndexMapEntry n ds s).2 =
  if (addIndexMapEntry n ds s).1 then S (getNumIndices s) else getNumIndices s.
Proof.
  unfold addIndexMapEntry, getNumIndices.
  destruct (index_map_ s !! n) eqn:Hn; simpl; [done|].
  by apply map_size_insert_None.
Qed.

(** The successful calls of a run name pairwise different keys, none of which
    was present before, and the final size is the initial size plus their
    number. *)
Lemma run_calls_successful calls s :
  NoDup (successful_names calls (run_calls calls s).1) ∧
  (∀ n, n ∈ successful_names calls (run_calls calls s).1 →
        index_map_ s !! n = None) ∧
  getNumIndices (run_calls calls s).2 =
    getNumIndices s + length (successful_names calls (run_calls calls s).1).
Proof.
  revert s. induction calls as [|[n ds] calls IH]; intros s.
  - simpl. split_and!; [constructor | by intros ? ?%elem_of_nil | lia].
  - rewrite run_calls_cons. cbn [fst snd successful_names].
    destruct (IH (addIndexMapEntry n ds s).2) as (Hnd & Hfresh & Hsize).
    rewrite Hsize, getNumIndices_after_call.
    destruct (addIndexMapEntry n ds s) as [[|] s1] eqn:Hcall; cbn [fst snd] in *.
    + apply addIndexMapEntry_true_inv in Hcall as [Hn Hs1].
      split_and!.
      * constructor; [|done]. intros Hin. apply Hfresh in Hin.
        rewrite Hs1, lookup_insert_eq in Hin. done.
      * intros k [-> | Hin]%elem_of_cons; [done|].
        apply Hfresh in Hin. rewrite Hs1 in Hin.
        by apply lookup_insert_None in Hin as [? _].
      * simpl. lia.
    + apply addIndexMapEntry_false_inv in Hcall as [_ ->]. done.
Qed.

(** Every name that is tried ends up registered: its first call succeeds
    unless the name was there from the start. *)
Lemma run_calls_final_keys calls s k :
  is_Some (index_map_ (run_calls calls s).2 !! k) ↔
  is_Some (index_map_ s !! k) ∨ k ∈ successful_names calls (run_calls calls s).1.
Proof.
  revert s. induction calls as [|[n ds] calls IH]; intros s.
  - simpl. split; [by left | intros [? | ?%elem_of_nil]; done].
  - rewrite run_calls_cons. cbn [fst snd successful_names]. rewrite IH.
    destruct (addIndexMapEntry n ds s) as [[|] s1] eqn:Hcall; cbn [fst snd].
    + apply addIndexMapEntry_true_inv in Hcall as [Hn Hs1].
      rewrite Hs1, lookup_insert_is_Some, elem_of_cons. split.
      * intros [[-> | [_ ?]] | ?]; auto.
      * intros [? | [-> | ?]]; auto.
        destruct (decide (n = k)); auto.
    + apply addIndexMapEntry_false_inv in Hcall as [_ ->]. done.
Qed.

Lemma run_calls_tried_keys calls s k :
  is_Some (index_map_ (run_calls calls s).2 !! k) ↔
  is_Some (index_map_ s !! k) ∨ k ∈ calls.*1.
Proof.
  revert s. induction calls as [|[n ds] calls IH]; intros s.
  - simpl. split; [by left | intros [? | ?%elem_of_nil]; done].
  - rewrite run_calls_cons. cbn [fst snd]. rewrite IH, fmap_cons, elem_of_cons.
    cbn [fst]. unfold addIndexMapEntry.
    destruct (index_map_ s !! n) as [ds0|] eqn:Hn; cbn [snd index_map_].
    + split; [intros [? | ?]; auto|].
      intros [? | [-> | ?]]; eauto.
    + rewrite lookup_insert_is_Some. split.
      * intros [[-> | [_ ?]] | ?]; auto.
      * intros [? | [-> | ?]]; auto.
        destruct (decide (n = k)); auto.
Qed.

End Counting.

(** ** Rebuilding a map from its entries *)

Section Rebuild.

Context {IndexSubBlockType : Type} {Payload : Type}.

Local Abbreviation Description := (IndexSubBlockDescription IndexSubBlockType Payload).

Implicit Types (l : list (string * list Description)).
Implicit Types (m : gmap string (list Description)).

(** Inserting entries with pairwise different names one after the other
    gives the map that holds all of them, on top of the starting map. *)
Lemma foldl_reconstruct_step l m :
  NoDup l.*1 →
  foldl reconstruct_step m (entry_of_pair <$> l) = list_to_map l ∪ m.
Proof.
  revert m. induction l as [|[i x] l IH]; intros m Hnd.
  - simpl. by rewrite (left_id_L ∅ (∪)).
  - apply NoDup_cons in Hnd as [Hi Hnd]. simpl.
    rewrite IH by done. unfold reconstruct_step. simpl.
    rewrite <- insert_union_r, insert_union_l; [done|].
    by apply not_elem_of_list_to_map_1.
Qed.

(** The rebuilt map is the same whatever order the entries were written
    in. *)
Lemma reconstruct_any_order l m :
  l ≡ₚ map_to_list m →
  foldl reconstruct_step ∅ (entry_of_pair <$> l) = m.
Proof.
  intros Hp. rewrite foldl_reconstruct_step.
  - rewrite (right_id_L ∅ (∪)).
    rewrite (list_to_map_proper l (map_to_list m)); [apply list_to_map_to_list| |done].
    rewrite Hp. apply NoDup_fst_map_to_list.
  - rewrite Hp. apply NoDup_fst_map_to_list.
Qed.

End Rebuild.

(** ** The scenarios of the specification, run on the embedding *)

Module Scenarios.
Import Sample.

(** Scenario 1: nothing registered. *)
Example scenario_empty :
  getNumIndices empty = 0 ∧ hasIndexWithName empty "x" = false.
Proof. split; reflexivity. Qed.

(** Scenario 2: a second registration under the same name is refused. *)
Example scenario_same_name :
  getNumIndices one_index = 1 ∧
  addIndexMapEntry "idx1" [hash [5%Z]] one_index = (false, one_index) ∧
  getNumIndices (addIndexMapEntry "idx1" [hash [5%Z]] one_index).2 = 1.
Proof. split_and!; reflexivity. Qed.

(** Scenario 3: two BTREE indices; a HASH candidate matches neither. *)
Example scenario_similar :
  (addIndexMapEntry "idx2" [btree [1%Z; 2%Z]] one_index).1 = true ∧
  hasIndexWithDescription two_indices (btree [7%Z]) = true ∧
  hasIndexWithDescription two_indices (hash [0%Z]) = false.
Proof. split_and!; reflexivity. Qed.

(** Scenario 4: serialize, then rebuild. *)
Example scenario_round_trip :
  hasIndexWithName (ReconstructFromProto (getProto one_index)) "idx1" = true ∧
  getNumIndices (ReconstructFromProto (getProto one_index)) = 1.
Proof. split; reflexivity. Qed.

End Scenarios.

(** ** The properties of the index scheme *)

(** C1 (round trip).  Rebuilding a scheme from the record that [getProto]
    produced gives back the same scheme: the same keys, and under each key
    the same descriptions in the same order.  This holds for every scheme,
    in particular for each one reached by successful registrations. *)
Theorem ReconstructFromProto_getProto
    {T : Type} `{!EqDecision T} {P : Type} (s : IndexScheme T P) :
  ReconstructFromProto (getProto s) = s ∧
  (∀ calls, ReconstructFromProto (getProto (run_calls calls s).2)
            = (run_calls calls s).2) ∧
  ∀ n, index_map_ (ReconstructFromProto (getProto s)) !! n = index_map_ s !! n.
Proof.
  assert (∀ s0 : IndexScheme T P, ReconstructFromProto (getProto s0) = s0) as Hrt.
  { intros [m]. unfold ReconstructFromProto, getProto. simpl. f_equal.
    by apply reconstruct_any_order. }
  split_and!; [apply Hrt | intros calls; apply Hrt | intros n; by rewrite Hrt].
Qed.

(** C2 (name uniqueness, atomicity).  Once [addIndexMapEntry n d1] has
    returned [true], any later [addIndexMapEntry n d2] returns [false] and
    leaves the object as it was, with [n] still mapped to [d1]; on a name
    that is not a key the call returns [true] and installs the whole of
    [d2] under it.  A call has no third outcome. *)
Theorem addIndexMapEntry_name_unique
    {T : Type} `{!EqDecision T} {P : Type}
    (s : IndexScheme T P) (n : string) (d1 d2 : list (IndexSubBlockDescription T P)) :
  (∀ s1 calls, addIndexMapEntry n d1 s = (true, s1) →
     addIndexMapEntry n d2 (run_calls calls s1).2 = (false, (run_calls calls s1).2) ∧
     index_map_ (run_calls calls s1).2 !! n = Some d1) ∧
  (index_map_ s !! n = None →
     addIndexMapEntry n d2 s = (true, {| index_map_ := <[n := d2]> (index_map_ s) |})) ∧
  (addIndexMapEntry n d2 s = (false, s) ∨
   addIndexMapEntry n d2 s = (true, {| index_map_ := <[n := d2]> (index_map_ s) |})).
Proof.
  split_and!.
  - intros s1 calls [_ Hs1]%addIndexMapEntry_true_inv.
    assert (index_map_ (run_calls calls s1).2 !! n = Some d1) as Hn.
    { apply run_calls_keeps. by rewrite Hs1, lookup_insert_eq. }
    split; [|done]. by eapply addIndexMapEntry_present.
  - apply addIndexMapEntry_absent.
  - destruct (index_map_ s !! n) as [ds0|] eqn:Hn.
    + left. by eapply addIndexMapEntry_present.
    + right. by apply addIndexMapEntry_absent.
Qed.

Lemma addIndexMapEntry_name_unique_witness :
  (addIndexMapEntry "idx1" [Sample.hash [5%Z]] Sample.two_indices
     = (false, Sample.two_indices) ∧
   index_map_ Sample.two_indices !! "idx1" = Some [Sample.btree [0%Z]]) ∧
  addIndexMapEntry "idx1" [Sample.hash [5%Z]] Sample.empty
    = (true, {| index_map_ := <["idx1" := [Sample.hash [5%Z]]]> (index_map_ Sample.empty) |}).
Proof.
  destruct (addIndexMapEntry_name_unique Sample.empty "idx1"
              [Sample.btree [0%Z]] [Sample.hash [5%Z]]) as (Hlater & Hfresh & _).
  split.
  - apply (Hlater Sample.one_index [("idx2", [Sample.btree [1%Z; 2%Z]])]).
    reflexivity.
  - apply Hfresh. reflexivity.
Defined.

(** C3 (similarity).  Two descriptions are similar exactly when their
    sub-block types are equal, and nothing but the two sub-block types
    enters the answer. *)
Theorem areIndexDescriptionsSimilar_tag_only
    {T : Type} `{!EqDecision T} {P : Type} (a b : IndexSubBlockDescription T P) :
  (areIndexDescriptionsSimilar a b = true ↔ sub_block_type a = sub_block_type b) ∧
  (∀ a' b' : IndexSubBlockDescription T P,
     sub_block_type a' = sub_block_type a →
     sub_block_type b' = sub_block_type b →
     areIndexDescriptionsSimilar a' b' = areIndexDescriptionsSimilar a b).
Proof.
  split; [apply similar_true_iff|].
  intros a' b' Ha Hb. unfold areIndexDescriptionsSimilar. by rewrite Ha, Hb.
Qed.

Lemma areIndexDescriptionsSimilar_tag_only_witness :
  areIndexDescriptionsSimilar (Sample.btree [1%Z; 2%Z]) (Sample.hash [])
  = areIndexDescriptionsSimilar (Sample.btree [0%Z]) (Sample.hash [9%Z]).
Proof.
  destruct (areIndexDescriptionsSimilar_tag_only
              (Sample.btree [0%Z]) (Sample.hash [9%Z])) as [_ Hfields].
  apply Hfields; reflexivity.
Defined.

(** C4 (scan for a similar description).  [hasIndexWithDescription] answers
    [true] exactly when some description stored under some name is similar
    to the candidate.  Hence, after a description with a given sub-block
    type has been registered, every candidate of that sub-block type is
    reported, whatever else it carries and whatever is registered later.
    The member is [const]: it yields only the answer, the object is not part
    of its result. *)
Theorem hasIndexWithDescription_iff_stored_similar
    {T : Type} `{!EqDecision T} {P : Type}
    (s : IndexScheme T P) (c : IndexSubBlockDescription T P) :
  (hasIndexWithDescription s c = true ↔
   ∃ n ds d, index_map_ s !! n = Some ds ∧ d ∈ ds ∧
             areIndexDescriptionsSimilar d c = true) ∧
  (∀ n ds d s1 calls,
     addIndexMapEntry n ds s = (true, s1) → d ∈ ds →
     sub_block_type c = sub_block_type d →
     hasIndexWithDescription (run_calls calls s1).2 c = true).
Proof.
  split; [apply hasIndexWithDescription_true|].
  intros n ds d s1 calls [_ Hs1]%addIndexMapEntry_true_inv Hd Htag.
  apply hasIndexWithDescription_true. exists n, ds, d. split_and!; [|done|].
  - apply run_calls_keeps. by rewrite Hs1, lookup_insert_eq.
  - by apply similar_true_iff.
Qed.

Lemma hasIndexWithDescription_iff_stored_similar_witness :
  hasIndexWithDescription Sample.two_indices (Sample.btree [42%Z]) = true.
Proof.
  destruct (hasIndexWithDescription_iff_stored_similar
              Sample.empty (Sample.btree [42%Z])) as [_ Hlater].
  apply (Hlater "idx1" [Sample.btree [0%Z]] (Sample.btree [0%Z]) Sample.one_index
           [("idx2", [Sample.btree [1%Z; 2%Z]])]).
  - reflexivity.
  - apply list_elem_of_here.
  - reflexivity.
Defined.

(** C5 (count).  Starting from a new object and making any sequence of
    calls, [getNumIndices] is the number of calls that returned [true];
    those calls name pairwise different keys, which are exactly the names
    that were tried.  A call that returns [false] leaves [getNumIndices] as
    it was.  A new object has no index and knows no name. *)
Theorem getNumIndices_counts_registered
    {T : Type} `{!EqDecision T} {P : Type}
    (calls : list (string * list (IndexSubBlockDescription T P))) :
  let flags := (run_calls calls IndexScheme_new).1 in
  let s := (run_calls calls IndexScheme_new).2 in
  let names := successful_names calls flags in
  NoDup names ∧
  getNumIndices s = length names ∧
  getNumIndices s = size (list_to_set names : gset string) ∧
  (∀ n, n ∈ names ↔ n ∈ calls.*1) ∧
  (∀ (s0 : IndexScheme T P) n ds,
     (addIndexMapEntry n ds s0).1 = false →
     getNumIndices (addIndexMapEntry n ds s0).2 = getNumIndices s0) ∧
  getNumIndices (IndexScheme_new : IndexScheme T P) = 0 ∧
  ∀ n, hasIndexWithName (IndexScheme_new : IndexScheme T P) n = false.
Proof.
  intros flags s names.
  destruct (run_calls_successful calls IndexScheme_new) as (Hnd & _ & Hsize).
  fold flags s names in Hnd, Hsize. rewrite getNumIndices_new in Hsize.
  split_and!.
  - done.
  - done.
  - rewrite Hsize. simpl. symmetry. by apply size_list_to_set.
  - intros n.
    pose proof (run_calls_final_keys calls IndexScheme_new n) as Hfin.
    pose proof (run_calls_tried_keys calls IndexScheme_new n) as Htried.
    fold flags s names in Hfin. fold s in Htried.
    rewrite Htried in Hfin. simpl in Hfin. rewrite lookup_empty in Hfin.
    split.
    + intros Hin. destruct (proj2 Hfin (or_intror Hin)) as [[? [=]] | ?]; done.
    + intros Hin. destruct (proj1 Hfin (or_intror Hin)) as [[? [=]] | ?]; done.
  - intros s0 n ds Hfalse. by rewrite getNumIndices_after_call, Hfalse.
  - apply getNumIndices_new.
  - apply hasIndexWithName_new.
Qed.

Lemma getNumIndices_counts_registered_witness :
  getNumIndices
    (run_calls [("idx1", [Sample.btree [0%Z]]); ("idx1", [Sample.hash [5%Z]]);
                ("idx2", [Sample.btree [1%Z; 2%Z]])] Sample.empty).2 = 2 ∧
  getNumIndices (addIndexMapEntry "idx1" [Sample.hash [5%Z]] Sample.one_index).2
  = getNumIndices Sample.one_index.
Proof.
  destruct (getNumIndices_counts_registered
              [("idx1", [Sample.btree [0%Z]]); ("idx1", [Sample.hash [5%Z]]);
               ("idx2", [Sample.btree [1%Z; 2%Z]])])
    as (_ & Hlen & _ & _ & Hfail & _).
  split.
  - exact Hlen.
  - apply Hfail. reflexivity.
Defined.

(** C6 (invariant I2, as the specification words it).  The object accepts an
    empty vector of descriptions for a new name and then stores an empty
    vector under it, so the stored sequence is not always non-empty. *)
Lemma addIndexMapEntry_empty_vector_stored :
  (addIndexMapEntry "idx1" [] Sample.empty).1 = true ∧
  ¬ ∃ ds, index_map_ (addIndexMapEntry "idx1" [] Sample.empty).2 !! "idx1"
            = Some ds ∧ ds ≠ [].
Proof.
  split; [reflexivity|].
  intros (ds & Hds & Hne). vm_compute in Hds. congruence.
Qed.

(** C6 (invariant I2, amended).  Right after a call
    [addIndexMapEntry n d] that returned [true], the vector stored under [n]
    has as many descriptions as [d]; it is non-empty exactly when [d] is. *)
Theorem addIndexMapEntry_stored_length
    {T : Type} `{!EqDecision T} {P : Type}
    (s s1 : IndexScheme T P) (n : string) (d : list (IndexSubBlockDescription T P)) :
  addIndexMapEntry n d s = (true, s1) →
  ∃ ds, index_map_ s1 !! n = Some ds ∧ length ds = length d ∧
        (ds ≠ [] ↔ d ≠ []).
Proof.
  intros [_ Hs1]%addIndexMapEntry_true_inv. exists d.
  by rewrite Hs1, lookup_insert_eq.
Qed.

Lemma addIndexMapEntry_stored_length_witness :
  ∃ ds, index_map_ Sample.one_index !! "idx1" = Some ds ∧
        length ds = length [Sample.btree [0%Z]] ∧
        (ds ≠ [] ↔ [Sample.btree [0%Z]] ≠ []).
Proof.
  apply (addIndexMapEntry_stored_length Sample.empty Sample.one_index
           "idx1" [Sample.btree [0%Z]]).
  reflexivity.
Defined.

(** C7 (order-preserving copy).  After a call [addIndexMapEntry n d] that
    returned [true], the vector stored under [n] has the length of [d] and
    the same description at every position, and it stays that vector through
    every later call on the object. *)
Theorem addIndexMapEntry_stores_copy
    {T : Type} `{!EqDecision T} {P : Type}
    (s s1 : IndexScheme T P) (n : string) (d : list (IndexSubBlockDescription T P)) :
  addIndexMapEntry n d s = (true, s1) →
  ∃ ds, index_map_ s1 !! n = Some ds ∧
        length ds = length d ∧
        (∀ i : nat, ds !! i = d !! i) ∧
        ∀ calls, index_map_ (run_calls calls s1).2 !! n = Some ds.
Proof.
  unfold addIndexMapEntry. destruct (index_map_ s !! n) eqn:Hn; [done|].
  intros [= <-]. exists (copy_descriptions d). cbn [index_map_].
  assert (<[n := copy_descriptions d]> (index_map_ s) !! n
          = Some (copy_descriptions d)) as Hstored by apply lookup_insert_eq.
  split_and!.
  - done.
  - by rewrite copy_descriptions_id.
  - intros i. by rewrite copy_descriptions_id.
  - intros calls. by apply run_calls_keeps.
Qed.

Lemma addIndexMapEntry_stores_copy_witness :
  ∃ ds, index_map_ Sample.two_indices !! "idx2" = Some ds ∧
        length ds = length [Sample.btree [1%Z; 2%Z]] ∧
        (∀ i : nat, ds !! i = [Sample.btree [1%Z; 2%Z]] !! i) ∧
        ∀ calls, index_map_ (run_calls calls Sample.two_indices).2 !! "idx2" = Some ds.
Proof.
  apply (addIndexMapEntry_stores_copy Sample.one_index Sample.two_indices
           "idx2" [Sample.btree [1%Z; 2%Z]]).
  reflexivity.
Defined.

(** C8 (monotonic).  A call to [addIndexMapEntry], whether it returns [true]
    or [false], keeps every key that was present and the vector stored under
    it; so does any sequence of calls.  The other members are [const] and
    return no object at all. *)
Theorem addIndexMapEntry_monotonic
    {T : Type} `{!EqDecision T} {P : Type}
    (s : IndexScheme T P) (k : string) (ds0 : list (IndexSubBlockDescription T P)) :
  index_map_ s !! k = Some ds0 →
  (∀ n d, index_map_ (addIndexMapEntry n d s).2 !! k = Some ds0) ∧
  (∀ calls, index_map_ (run_calls calls s).2 !! k = Some ds0).
Proof.
  intros Hk. split.
  - intros n d. by apply addIndexMapEntry_keeps.
  - intros calls. by apply run_calls_keeps.
Qed.

Lemma addIndexMapEntry_monotonic_witness :
  (∀ n d, index_map_ (addIndexMapEntry n d Sample.one_index).2 !! "idx1"
          = Some [Sample.btree [0%Z]]) ∧
  (∀ calls, index_map_ (run_calls calls Sample.one_index).2 !! "idx1"
            = Some [Sample.btree [0%Z]]).
Proof.
  apply (addIndexMapEntry_monotonic Sample.one_index "idx1" [Sample.btree [0%Z]]).
  reflexivity.
Defined.

(** C9 (no similarity check on registration).  The flag returned by
    [addIndexMapEntry] is [true] exactly when the name is not yet a key.  In
    particular a new name is accepted, and its descriptions stored, also
    when each of them is similar to a description already stored under
    another name. *)
Theorem addIndexMapEntry_ignores_similarity
    {T : Type} `{!EqDecision T} {P : Type}
    (s : IndexScheme T P) (n2 : string) (d : list (IndexSubBlockDescription T P)) :
  ((addIndexMapEntry n2 d s).1 = true ↔ index_map_ s !! n2 = None) ∧
  (index_map_ s !! n2 = None →
   (∀ x, x ∈ d → hasIndexWithDescription s x = true) →
   (addIndexMapEntry n2 d s).1 = true ∧
   index_map_ (addIndexMapEntry n2 d s).2 !! n2 = Some d).
Proof.
  split.
  - unfold addIndexMapEntry. by destruct (index_map_ s !! n2).
  - intros Hn _. rewrite addIndexMapEntry_absent by done. simpl.
    by rewrite lookup_insert_eq.
Qed.

Lemma addIndexMapEntry_ignores_similarity_witness :
  (addIndexMapEntry "idx2" [Sample.btree [1%Z; 2%Z]] Sample.one_index).1 = true ∧
  index_map_ (addIndexMapEntry "idx2" [Sample.btree [1%Z; 2%Z]] Sample.one_index).2
    !! "idx2" = Some [Sample.btree [1%Z; 2%Z]].
Proof.
  destruct (addIndexMapEntry_ignores_similarity Sample.one_index "idx2"
              [Sample.btree [1%Z; 2%Z]]) as [_ Hsimilar].
  apply Hsimilar.
  - reflexivity.
  - intros x Hx. apply list_elem_of_singleton in Hx. rewrite Hx. reflexivity.
Defined.

(** C10 (empty vector of descriptions).  Registering a new name with no
    description returns [true], raises [getNumIndices] by one, makes
    [hasIndexWithName] answer [true] for the name and stores the empty
    vector under it; [hasIndexWithDescription] answers as before for every
    candidate, so still [false] when no description is stored anywhere. *)
Theorem addIndexMapEntry_empty_vector
    {T : Type} `{!EqDecision T} {P : Type} (s : IndexScheme T P) (n : string) :
  index_map_ s !! n = None →
  (addIndexMapEntry n [] s).1 = true ∧
  getNumIndices (addIndexMapEntry n [] s).2 = S (getNumIndices s) ∧
  hasIndexWithName (addIndexMapEntry n [] s).2 n = true ∧
  index_map_ (addIndexMapEntry n [] s).2 !! n = Some [] ∧
  (∀ c, hasIndexWithDescription (addIndexMapEntry n [] s).2 c
        = hasIndexWithDescription s c) ∧
  ((∀ k ds, index_map_ s !! k = Some ds → ds = []) →
   ∀ c, hasIndexWithDescription (addIndexMapEntry n [] s).2 c = false).
Proof.
  intros Hn.
  assert (∀ c, hasIndexWithDescription (addIndexMapEntry n [] s).2 c
               = hasIndexWithDescription s c) as Hsame.
  { intros c. rewrite addIndexMapEntry_absent by done. cbn [snd].
    apply eq_true_iff_eq. rewrite !hasIndexWithDescription_true. cbn [index_map_].
    split.
    - intros (k & ds & d & Hk & Hd & Hsim).
      apply lookup_insert_Some in Hk as [[_ <-] | [_ Hk]].
      + by apply elem_of_nil in Hd.
      + by exists k, ds, d.
    - intros (k & ds & d & Hk & Hd & Hsim). exists k, ds, d.
      split; [|done]. rewrite lookup_insert_ne; [done | congruence]. }
  split_and!.
  - by rewrite addIndexMapEntry_absent.
  - by rewrite getNumIndices_after_call, addIndexMapEntry_absent.
  - rewrite addIndexMapEntry_absent by done. apply hasIndexWithName_true.
    simpl. rewrite lookup_insert_eq. by eexists.
  - rewrite addIndexMapEntry_absent by done. simpl. apply lookup_insert_eq.
  - done.
  - intros Hempty c. rewrite Hsame.
    destruct (hasIndexWithDescription s c) eqn:Hhas; [|done].
    apply hasIndexWithDescription_true in Hhas as (k & ds & d & Hk & Hd & _).
    apply Hempty in Hk as ->. by apply elem_of_nil in Hd.
Qed.

Lemma addIndexMapEntry_empty_vector_witness :
  (addIndexMapEntry "idx0" [] Sample.empty).1 = true ∧
  getNumIndices (addIndexMapEntry "idx0" [] Sample.empty).2 = 1 ∧
  hasIndexWithName (addIndexMapEntry "idx0" [] Sample.empty).2 "idx0" = true ∧
  ∀ c, hasIndexWithDescription (addIndexMapEntry "idx0" [] Sample.empty).2 c = false.
Proof.
  destruct (addIndexMapEntry_empty_vector Sample.empty "idx0")
    as (Hflag & Hcount & Hname & _ & _ & Hnone).
  - reflexivity.
  - split_and!; [exact Hflag | exact Hcount | exact Hname |].
    apply Hnone. intros k ds Hk. vm_compute in Hk. congruence.
Defined.

(** ** How the members compose: supporting lemmas *)

Section Composition.

Context {IndexSubBlockType : Type} `{!EqDecision IndexSubBlockType}.
Context {Payload : Type}.

Local Abbreviation Description := (IndexSubBlockDescription IndexSubBlockType Payload).
Local Abbreviation Scheme := (IndexScheme IndexSubBlockType Payload).

Implicit Types (s : Scheme) (n k : string) (d c : Description).
Implicit Types (ds : list Description).
Implicit Types (calls : list (string * list Description)).

(** The keys after one call are the keys before it and the name passed. *)
Lemma addIndexMapEntry_keys s n ds k :
  is_Some (index_map_ (addIndexMapEntry n ds s).2 !! k) ↔
  k = n ∨ is_Some (index_map_ s !! k).
Proof.
  unfold addIndexMapEntry.
  destruct (index_map_ s !! n) as [ds0|] eqn:Hn; cbn [snd index_map_].
  - split; [by right | intros [-> | Hk]; [by exists ds0 | done]].
  - rewrite lookup_insert_is_Some. split.
    + intros [-> | [_ Hk]]; [by left | by right].
    + intros [-> | Hk]; [by left|]. destruct (decide (n = k)); auto.
Qed.

Lemma addIndexMapEntry_flag s n ds :
  (addIndexMapEntry n ds s).1 = negb (hasIndexWithName s n).
Proof.
  unfold addIndexMapEntry, hasIndexWithName. by destruct (index_map_ s !! n).
Qed.

(** What one call adds to the answers of the scan. *)
Lemma hasIndexWithDescription_after_call s n ds c :
  hasIndexWithDescription (addIndexMapEntry n ds s).2 c =
  hasIndexWithDescription s c
  || ((addIndexMapEntry n ds s).1 && scan_descriptions ds c).
Proof.
  destruct (index_map_ s !! n) as [ds0|] eqn:Hn.
  - rewrite (addIndexMapEntry_present s n ds ds0 Hn). simpl.
    by rewrite orb_false_r.
  - rewrite (addIndexMapEntry_absent s n ds Hn). cbn [fst snd].
    rewrite andb_true_l. apply eq_true_iff_eq.
    rewrite orb_true_iff, !hasIndexWithDescription_true, scan_descriptions_true.
    cbn [index_map_]. split.
    + intros (k & ds1 & d & Hk & Hd & Hsim).
      apply lookup_insert_Some in Hk as [[_ <-] | [_ Hk]].
      * right. by exists d.
      * left. by exists k, ds1, d.
    + intros [(k & ds1 & d & Hk & Hd & Hsim) | (d & Hd & Hsim)].
      * exists k, ds1, d. split; [|done].
        rewrite lookup_insert_ne; [done | congruence].
      * exists n, ds, d. by rewrite lookup_insert_eq.
Qed.

Lemma run_calls_flags_length calls s :
  length (run_calls calls s).1 = length calls.
Proof.
  revert s. induction calls as [|[n ds] calls IH]; intros s; [done|].
  rewrite run_calls_cons. simpl. by rewrite IH.
Qed.

(** The flag of the [i]-th call of a run. *)
Lemma run_calls_flag_lookup calls s (i : nat) n ds :
  calls !! i = Some (n, ds) →
  ((run_calls calls s).1 !! i = Some true ↔
     index_map_ s !! n = None ∧ n ∉ (take i calls).*1) ∧
  ((run_calls calls s).1 !! i = Some false ↔
     is_Some (index_map_ s !! n) ∨ n ∈ (take i calls).*1).
Proof.
  revert s i. induction calls as [|[n0 ds0] calls IH]; intros s i Hi; [done|].
  rewrite run_calls_cons. destruct i as [|i]; cbn [fst lookup list_lookup take].
  - injection Hi as -> ->. simpl. rewrite addIndexMapEntry_flag.
    unfold hasIndexWithName. destruct (index_map_ s !! n) as [ds1|]; simpl.
    + split; split.
      * done.
      * by intros [? _].
      * intros _. left. by exists ds1.
      * done.
    + split; split.
      * intros _. split; [done | apply not_elem_of_nil].
      * done.
      * done.
      * intros [[? ?] | ?%elem_of_nil]; done.
  - simpl in Hi. destruct (IH (addIndexMapEntry n0 ds0 s).2 i Hi) as [Ht Hf].
    rewrite Ht, Hf, fmap_cons, elem_of_cons. cbn [fst].
    rewrite eq_None_not_Some, addIndexMapEntry_keys, eq_None_not_Some.
    split; tauto.
Qed.

(** The vector of the earliest call under a new name is the one that is
    stored at the end of the run. *)
Lemma run_calls_first_call_stored calls s (i : nat) n ds :
  calls !! i = Some (n, ds) →
  index_map_ s !! n = None →
  n ∉ (take i calls).*1 →
  index_map_ (run_calls calls s).2 !! n = Some ds.
Proof.
  revert s i. induction calls as [|[n0 ds0] calls IH]; intros s i Hi Hn Hnot; [done|].
  rewrite run_calls_cons. cbn [snd]. destruct i as [|i].
  - injection Hi as -> ->. apply run_calls_keeps.
    rewrite (addIndexMapEntry_absent s n ds Hn). simpl. apply lookup_insert_eq.
  - simpl in Hi, Hnot. apply not_elem_of_cons in Hnot as [Hne Hnot].
    apply (IH _ i); [done| |done].
    apply eq_None_not_Some. rewrite addIndexMapEntry_keys.
    intros [-> | Hk]; [done|]. by rewrite Hn in Hk; destruct Hk.
Qed.

(** The map at the end of a run: what was there, and for every other name
    the vector of its earliest call. *)
Lemma run_calls_map_union calls s :
  index_map_ (run_calls calls s).2 = index_map_ s ∪ list_to_map calls.
Proof.
  revert s. induction calls as [|[n ds] calls IH]; intros s.
  - simpl. by rewrite (right_id_L ∅ (∪)).
  - rewrite run_calls_cons. cbn [snd]. rewrite IH. simpl.
    destruct (index_map_ s !! n) as [ds0|] eqn:Hn.
    + rewrite (addIndexMapEntry_present s n ds ds0 Hn). cbn [snd].
      apply map_eq. intros k. rewrite !lookup_union.
      destruct (decide (n = k)) as [<- | Hne].
      * rewrite Hn. by rewrite !union_Some_l.
      * by rewrite lookup_insert_ne.
    + rewrite (addIndexMapEntry_absent s n ds Hn). cbn [snd index_map_].
      by rewrite <- insert_union_l, <- insert_union_r.
Qed.

Lemma NoDup_fst_take_lookup calls (i : nat) n ds :
  NoDup calls.*1 → calls !! i = Some (n, ds) → n ∉ (take i calls).*1.
Proof.
  intros Hnd Hi. rewrite <- (take_drop_middle calls i (n, ds) Hi) in Hnd.
  rewrite fmap_app, fmap_cons in Hnd. apply NoDup_app in Hnd as (_ & Hdisj & _).
  intros Hin. apply (Hdisj n Hin). left.
Qed.

(** The number of keys after a run, in terms of the flags returned. *)
Lemma run_calls_count calls s :
  getNumIndices (run_calls calls s).2 =
  getNumIndices s + length (filter (λ b : bool, b = true) (run_calls calls s).1).
Proof.
  revert s. induction calls as [|[n ds] calls IH]; intros s.
  - simpl. lia.
  - rewrite run_calls_cons. cbn [fst snd]. rewrite IH, getNumIndices_after_call.
    destruct (addIndexMapEntry n ds s).1.
    + rewrite filter_cons_True by done. simpl. lia.
    + by rewrite filter_cons_False.
Qed.

End Composition.

(** ** Further properties of the members *)

(** X1 (similarity is an equivalence).  Every description is similar to
    itself, the answer does not depend on the order of the two arguments,
    and similarity carries over from [a], [b] and [b], [c] to [a], [c]. *)
Theorem areIndexDescriptionsSimilar_equivalence
    {T : Type} `{!EqDecision T} {P : Type} (a b c : IndexSubBlockDescription T P) :
  areIndexDescriptionsSimilar a a = true ∧
  areIndexDescriptionsSimilar a b = areIndexDescriptionsSimilar b a ∧
  (areIndexDescriptionsSimilar a b = true →
   areIndexDescriptionsSimilar b c = true →
   areIndexDescriptionsSimilar a c = true).
Proof.
  split_and!.
  - by apply similar_true_iff.
  - apply eq_true_iff_eq. rewrite !similar_true_iff. split; congruence.
  - rewrite !similar_true_iff. congruence.
Qed.

Lemma areIndexDescriptionsSimilar_equivalence_witness :
  areIndexDescriptionsSimilar (Sample.btree [0%Z]) (Sample.btree [3%Z; 4%Z]) = true.
Proof.
  destruct (areIndexDescriptionsSimilar_equivalence
              (Sample.btree [0%Z]) (Sample.btree [1%Z; 2%Z]) (Sample.btree [3%Z; 4%Z]))
    as (_ & _ & Htrans).
  apply Htrans; reflexivity.
Defined.

(** X2 (names known after a call).  After [addIndexMapEntry n d], whatever
    it returned, [hasIndexWithName] answers [true] for [n] and answers for
    every other name what it answered before: no other name appears and
    none disappears. *)
Theorem hasIndexWithName_after_addIndexMapEntry
    {T : Type} `{!EqDecision T} {P : Type}
    (s : IndexScheme T P) (n k : string) (d : list (IndexSubBlockDescription T P)) :
  hasIndexWithName (addIndexMapEntry n d s).2 k
  = bool_decide (k = n) || hasIndexWithName s k.
Proof.
  apply eq_true_iff_eq.
  rewrite orb_true_iff, bool_decide_eq_true, !hasIndexWithName_true.
  apply addIndexMapEntry_keys.
Qed.

(** X3 (the flag and the name query).  [addIndexMapEntry n d] returns the
    negation of what [hasIndexWithName n] answered just before.  After the
    call the name is taken whatever the flag was, so a repeated call with
    the same name and any vector returns [false] and changes nothing. *)
Theorem addIndexMapEntry_flag_negates_hasIndexWithName
    {T : Type} `{!EqDecision T} {P : Type}
    (s : IndexScheme T P) (n : string) (d : list (IndexSubBlockDescription T P)) :
  (addIndexMapEntry n d s).1 = negb (hasIndexWithName s n) ∧
  ∀ d', addIndexMapEntry n d' (addIndexMapEntry n d s).2
        = (false, (addIndexMapEntry n d s).2).
Proof.
  split; [apply addIndexMapEntry_flag|].
  intros d'.
  destruct (proj2 (addIndexMapEntry_keys s n d n) (or_introl eq_refl)) as [ds0 Hn].
  by apply (addIndexMapEntry_present _ n d' ds0).
Qed.

(** X4 (the scan after one call).  After [addIndexMapEntry n d],
    [hasIndexWithDescription] answers [true] for a candidate exactly when it
    did before the call, or the call returned [true] and [d] holds a
    description with the candidate's sub-block type.  A call that returns
    [false] therefore changes no answer. *)
Theorem hasIndexWithDescription_after_addIndexMapEntry
    {T : Type} `{!EqDecision T} {P : Type}
    (s : IndexScheme T P) (n : string) (d : list (IndexSubBlockDescription T P))
    (c : IndexSubBlockDescription T P) :
  (hasIndexWithDescription (addIndexMapEntry n d s).2 c = true ↔
   hasIndexWithDescription s c = true ∨
   ((addIndexMapEntry n d s).1 = true ∧
    ∃ x, x ∈ d ∧ sub_block_type x = sub_block_type c)) ∧
  ((addIndexMapEntry n d s).1 = false →
   hasIndexWithDescription (addIndexMapEntry n d s).2 c
   = hasIndexWithDescription s c).
Proof.
  split.
  - rewrite hasIndexWithDescription_after_call, orb_true_iff, andb_true_iff.
    rewrite scan_descriptions_true.
    setoid_rewrite similar_true_iff. done.
  - intros Hflag. rewrite hasIndexWithDescription_after_call, Hflag.
    simpl. apply orb_false_r.
Qed.

Lemma hasIndexWithDescription_after_addIndexMapEntry_witness :
  hasIndexWithDescription
    (addIndexMapEntry "idx1" [Sample.hash [5%Z]] Sample.one_index).2 (Sample.hash [])
  = hasIndexWithDescription Sample.one_index (Sample.hash []).
Proof.
  destruct (hasIndexWithDescription_after_addIndexMapEntry
              Sample.one_index "idx1" [Sample.hash [5%Z]] (Sample.hash []))
    as [_ Hrefused].
  apply Hrefused. reflexivity.
Defined.

(** X5 (the scan after a run of calls).  After any sequence of calls,
    [hasIndexWithDescription] answers [true] for a candidate exactly when it
    did at the start, or some call of the sequence returned [true] and
    carried a description with the candidate's sub-block type.  Vectors
    passed to calls that returned [false] never count. *)
Theorem hasIndexWithDescription_after_run_calls
    {T : Type} `{!EqDecision T} {P : Type}
    (calls : list (string * list (IndexSubBlockDescription T P)))
    (s : IndexScheme T P) (c : IndexSubBlockDescription T P) :
  hasIndexWithDescription (run_calls calls s).2 c = true ↔
  hasIndexWithDescription s c = true ∨
  ∃ (i : nat) n ds x,
    calls !! i = Some (n, ds) ∧ (run_calls calls s).1 !! i = Some true ∧
    x ∈ ds ∧ sub_block_type x = sub_block_type c.
Proof.
  revert s. induction calls as [|[n0 ds0] calls IH]; intros s.
  - simpl. split; [by left|]. by intros [? | (i & n & ds & x & [=] & _)].
  - rewrite run_calls_cons. cbn [fst snd]. rewrite IH.
    rewrite hasIndexWithDescription_after_call, orb_true_iff, andb_true_iff.
    rewrite scan_descriptions_true. setoid_rewrite similar_true_iff.
    split.
    + intros [[Hs | [Hflag (x & Hx & Htag)]] | (i & n & ds & x & Hi & Hfi & Hx & Htag)].
      * by left.
      * right. exists 0, n0, ds0, x. simpl. by rewrite Hflag.
      * right. by exists (S i), n, ds, x.
    + intros [Hs | (i & n & ds & x & Hi & Hfi & Hx & Htag)].
      * by do 2 left.
      * destruct i as [|i]; simpl in Hi, Hfi.
        -- injection Hi as -> ->. injection Hfi as Hflag.
           left. right. split; [done|]. by exists x.
        -- right. by exists i, n, ds, x.
Qed.

(** X6 (the count after a run of calls).  From any object, [getNumIndices]
    after a sequence of calls is its value before plus the number of calls
    that returned [true]; it never goes down and grows by at most one per
    call. *)
Theorem getNumIndices_after_run_calls
    {T : Type} `{!EqDecision T} {P : Type}
    (calls : list (string * list (IndexSubBlockDescription T P)))
    (s : IndexScheme T P) :
  getNumIndices (run_calls calls s).2
  = getNumIndices s + length (filter (λ b : bool, b = true) (run_calls calls s).1) ∧
  getNumIndices s ≤ getNumIndices (run_calls calls s).2 ∧
  getNumIndices (run_calls calls s).2 ≤ getNumIndices s + length calls.
Proof.
  pose proof (run_calls_count calls s) as Hcount.
  pose proof (length_filter (λ b : bool, b = true) (run_calls calls s).1) as Hle.
  rewrite run_calls_flags_length in Hle.
  split_and!; [done | lia | lia].
Qed.

(** X7 (calls under different names commute).  For two different names the
    object reached is the same whichever call is made first, and each call
    returns the flag it would have returned on its own. *)
Theorem addIndexMapEntry_commute
    {T : Type} `{!EqDecision T} {P : Type}
    (s : IndexScheme T P) (n1 n2 : string)
    (d1 d2 : list (IndexSubBlockDescription T P)) :
  n1 ≠ n2 →
  (addIndexMapEntry n2 d2 (addIndexMapEntry n1 d1 s).2).2
  = (addIndexMapEntry n1 d1 (addIndexMapEntry n2 d2 s).2).2 ∧
  (addIndexMapEntry n2 d2 (addIndexMapEntry n1 d1 s).2).1
  = (addIndexMapEntry n2 d2 s).1 ∧
  (addIndexMapEntry n1 d1 (addIndexMapEntry n2 d2 s).2).1
  = (addIndexMapEntry n1 d1 s).1.
Proof.
  intros Hne. unfold addIndexMapEntry.
  destruct (index_map_ s !! n1) as [v1|] eqn:H1;
    destruct (index_map_ s !! n2) as [v2|] eqn:H2; cbn [fst snd index_map_];
    rewrite ?H1, ?H2, ?lookup_insert_ne, ?H1, ?H2 by done;
    cbn [fst snd index_map_]; split_and!; try done.
  f_equal. by apply insert_insert_ne.
Qed.

Lemma addIndexMapEntry_commute_witness :
  (addIndexMapEntry "idx2" [Sample.hash [5%Z]]
     (addIndexMapEntry "idx1" [Sample.btree [0%Z]] Sample.empty).2).2
  = (addIndexMapEntry "idx1" [Sample.btree [0%Z]]
       (addIndexMapEntry "idx2" [Sample.hash [5%Z]] Sample.empty).2).2.
Proof.
  destruct (addIndexMapEntry_commute Sample.empty "idx1" "idx2"
              [Sample.btree [0%Z]] [Sample.hash [5%Z]]) as [Hsame _].
  - discriminate.
  - exact Hsame.
Defined.

(** X8 (iteration order).  The answer of [hasIndexWithDescription] is the
    same for every order in which the iterator of the unordered map may
    yield the entries. *)
Theorem hasIndexWithDescription_any_iteration_order
    {T : Type} `{!EqDecision T} {P : Type}
    (s : IndexScheme T P) (c : IndexSubBlockDescription T P)
    (entries : list (string * list (IndexSubBlockDescription T P))) :
  entries ≡ₚ map_to_list (index_map_ s) →
  scan_entries entries c = hasIndexWithDescription s c.
Proof. intros Hp. by apply scan_entries_Permutation. Qed.

Lemma hasIndexWithDescription_any_iteration_order_witness :
  scan_entries (reverse (map_to_list (index_map_ Sample.two_indices)))
               (Sample.btree [9%Z])
  = hasIndexWithDescription Sample.two_indices (Sample.btree [9%Z]).
Proof.
  apply (hasIndexWithDescription_any_iteration_order Sample.two_indices).
  apply reverse_Permutation.
Defined.

(** X9 (no index at all).  [getNumIndices] is zero exactly when
    [hasIndexWithName] answers [false] for every name, and then
    [hasIndexWithDescription] answers [false] for every candidate; a [true]
    answer of either query means at least one index is counted. *)
Theorem getNumIndices_zero_iff_no_name
    {T : Type} `{!EqDecision T} {P : Type} (s : IndexScheme T P) :
  (getNumIndices s = 0 ↔ ∀ n, hasIndexWithName s n = false) ∧
  (getNumIndices s = 0 → ∀ c, hasIndexWithDescription s c = false) ∧
  (∀ n, hasIndexWithName s n = true → 0 < getNumIndices s) ∧
  (∀ c, hasIndexWithDescription s c = true → 0 < getNumIndices s).
Proof.
  assert (∀ n, hasIndexWithName s n = true → 0 < getNumIndices s) as Hname.
  { intros n Hn%hasIndexWithName_true.
    apply map_size_ne_0_lookup_2 in Hn. unfold getNumIndices. lia. }
  assert (∀ c, hasIndexWithDescription s c = true → 0 < getNumIndices s) as Hdesc.
  { intros c (n & ds & _ & Hn & _)%hasIndexWithDescription_true.
    apply (Hname n). apply hasIndexWithName_true. by exists ds. }
  split_and!; [|  |done|done].
  - unfold getNumIndices. rewrite map_size_empty_iff, map_empty. split.
    + intros Hnone n. unfold hasIndexWithName. by rewrite Hnone.
    + intros Hnone n. specialize (Hnone n). unfold hasIndexWithName in Hnone.
      by destruct (index_map_ s !! n).
  - intros Hzero c. destruct (hasIndexWithDescription s c) eqn:Hc; [|done].
    apply Hdesc in Hc. lia.
Qed.

Lemma getNumIndices_zero_iff_no_name_witness :
  0 < getNumIndices Sample.two_indices ∧
  ∀ c, hasIndexWithDescription Sample.empty c = false.
Proof.
  destruct (getNumIndices_zero_iff_no_name Sample.two_indices) as (_ & _ & _ & Hdesc).
  destruct (getNumIndices_zero_iff_no_name Sample.empty) as (_ & Hnone & _ & _).
  split.
  - apply (Hdesc (Sample.btree [])). reflexivity.
  - apply Hnone. reflexivity.
Defined.

(** X10 (the flag of each call of a run).  In a sequence of calls, a call
    returns [true] exactly when its name was not known at the start and no
    earlier call of the sequence used it; it returns [false] exactly when
    the name was known at the start or an earlier call used it, whether or
    not that earlier call had itself returned [true]. *)
Theorem run_calls_flag_first_use
    {T : Type} `{!EqDecision T} {P : Type}
    (calls : list (string * list (IndexSubBlockDescription T P)))
    (s : IndexScheme T P) (i : nat) (n : string)
    (ds : list (IndexSubBlockDescription T P)) :
  calls !! i = Some (n, ds) →
  ((run_calls calls s).1 !! i = Some true ↔
     hasIndexWithName s n = false ∧ n ∉ (take i calls).*1) ∧
  ((run_calls calls s).1 !! i = Some false ↔
     hasIndexWithName s n = true ∨ n ∈ (take i calls).*1).
Proof.
  intros Hi. destruct (run_calls_flag_lookup calls s i n ds Hi) as [Ht Hf].
  rewrite Ht, Hf, hasIndexWithName_true. unfold hasIndexWithName.
  split; [|done]. destruct (index_map_ s !! n); split; intros [? ?]; done.
Qed.

Lemma run_calls_flag_first_use_witness :
  (run_calls [("idx1", [Sample.hash [5%Z]]); ("idx3", []); ("idx3", [Sample.btree []])]
     Sample.one_index).1 !! 2 = Some false.
Proof.
  destruct (run_calls_flag_first_use
              [("idx1", [Sample.hash [5%Z]]); ("idx3", []); ("idx3", [Sample.btree []])]
              Sample.one_index 2 "idx3" [Sample.btree []]) as [_ Hfalse].
  - reflexivity.
  - apply Hfalse. right. simpl. apply list_elem_of_further, list_elem_of_here.
Defined.

(** X11 (the first registration wins).  In a sequence of calls, the vector
    passed by the earliest call under a name that was not known at the
    start is the vector stored under that name at the end, whatever later
    calls pass under the same name. *)
Theorem run_calls_first_registration_wins
    {T : Type} `{!EqDecision T} {P : Type}
    (calls : list (string * list (IndexSubBlockDescription T P)))
    (s : IndexScheme T P) (i : nat) (n : string)
    (ds : list (IndexSubBlockDescription T P)) :
  calls !! i = Some (n, ds) →
  hasIndexWithName s n = false →
  n ∉ (take i calls).*1 →
  index_map_ (run_calls calls s).2 !! n = Some ds.
Proof.
  intros Hi Hn Hfirst. apply (run_calls_first_call_stored calls s i); [done| |done].
  unfold hasIndexWithName in Hn. by destruct (index_map_ s !! n).
Qed.

Lemma run_calls_first_registration_wins_witness :
  index_map_
    (run_calls [("idx1", [Sample.hash [5%Z]]); ("idx3", []); ("idx3", [Sample.btree []])]
       Sample.one_index).2 !! "idx3" = Some [].
Proof.
  apply (run_calls_first_registration_wins _ Sample.one_index 1 "idx3" []).
  - reflexivity.
  - reflexivity.
  - simpl. intros Hin. apply list_elem_of_singleton in Hin. discriminate.
Defined.

(** X12 (every object can be built).  Each state of an index scheme is
    reached from a new object by a sequence of calls that all return
    [true], one call per index. *)
Theorem IndexScheme_reachable
    {T : Type} `{!EqDecision T} {P : Type} (s : IndexScheme T P) :
  ∃ calls : list (string * list (IndexSubBlockDescription T P)),
    (run_calls calls IndexScheme_new).2 = s ∧
    Forall (λ b : bool, b = true) (run_calls calls IndexScheme_new).1 ∧
    length calls = getNumIndices s.
Proof.
  exists (map_to_list (index_map_ s)). split_and!.
  - pose proof (run_calls_map_union (map_to_list (index_map_ s))
                  (IndexScheme_new : IndexScheme T P)) as Hmap.
    simpl in Hmap. rewrite (left_id_L ∅ (∪)), list_to_map_to_list in Hmap.
    destruct s as [m]. simpl in *.
    destruct (run_calls (map_to_list m) IndexScheme_new).2 as [m']. simpl in Hmap.
    by rewrite Hmap.
  - apply Forall_lookup_2. intros i b Hb.
    assert (i < length (map_to_list (index_map_ s))) as Hlt.
    { rewrite <- (run_calls_flags_length _ (IndexScheme_new : IndexScheme T P)).
      by eapply lookup_lt_Some. }
    destruct (lookup_lt_is_Some_2 _ _ Hlt) as [[n ds] Hi].
    destruct (run_calls_flag_lookup _ (IndexScheme_new : IndexScheme T P) i n ds Hi)
      as [Htrue _].
    assert ((run_calls (map_to_list (index_map_ s)) IndexScheme_new).1 !! i
            = Some true) as Hflag.
    { apply Htrue. split; [apply lookup_empty|].
      eapply NoDup_fst_take_lookup; [apply NoDup_fst_map_to_list | done]. }
    congruence.
  - apply length_map_to_list.
Qed.

(** X13 (the scan sees sub-block types only).  Two candidates with the same
    sub-block type get the same answer from [hasIndexWithDescription] on
    every object, and every description stored in the object is itself
    answered with [true]. *)
Theorem hasIndexWithDescription_by_sub_block_type
    {T : Type} `{!EqDecision T} {P : Type}
    (s : IndexScheme T P) (c c' : IndexSubBlockDescription T P) :
  (sub_block_type c = sub_block_type c' →
   hasIndexWithDescription s c = hasIndexWithDescription s c') ∧
  (∀ n ds, index_map_ s !! n = Some ds → c ∈ ds →
           hasIndexWithDescription s c = true).
Proof.
  split.
  - intros Htag. apply eq_true_iff_eq. rewrite !hasIndexWithDescription_true.
    setoid_rewrite similar_true_iff. by rewrite Htag.
  - intros n ds Hn Hc. apply hasIndexWithDescription_true.
    exists n, ds, c. split_and!; [done | done | by apply similar_true_iff].
Qed.

Lemma hasIndexWithDescription_by_sub_block_type_witness :
  hasIndexWithDescription Sample.two_indices (Sample.btree [1%Z; 2%Z])
  = hasIndexWithDescription Sample.two_indices (Sample.btree []) ∧
  hasIndexWithDescription Sample.two_indices (Sample.btree [1%Z; 2%Z]) = true.
Proof.
  destruct (hasIndexWithDescription_by_sub_block_type Sample.two_indices
              (Sample.btree [1%Z; 2%Z]) (Sample.btree [])) as [Htag Hstored].
  split.
  - apply Htag. reflexivity.
  - apply (Hstored "idx2" [Sample.btree [1%Z; 2%Z]]).
    + reflexivity.
    + apply list_elem_of_here.
Defined.
